(** * A comparator-driven binary tree: [BtreeNode<T>] and [Btree<T>]

    Shallow embedding of the header [BTree.hpp] (namespace [btree]).

    - A [std::unique_ptr<BtreeNode<T>>] is an exclusively owned, nullable
      pointer: it is modelled as [option BtreeNode] ([None] is [nullptr]).
      Ownership is exclusive, so there is neither sharing nor a cycle and
      a node with its descendants is a finite term.
    - A method that mutates [*this] is a function from the old state of
      the object to its new state; a method that also returns a value
      returns the pair of both.
    - [T]'s [operator==] is the parameter [eqb]; the comparator
      ([std::function<bool(const T&, const T&)>]) is a function to [bool].
    - Dereferencing a null [unique_ptr] is undefined behaviour: it is the
      outcome [NullDeref]. *)

From Stdlib Require Import Bool List ZArith Lia PeanoNat Permutation.
From Stdlib Require PrimFloat.
Import ListNotations.

(** Outcome of a call that may dereference a null pointer. *)
Inductive Outcome (A : Type) : Type :=
| Ok (a : A)
| NullDeref.
Arguments Ok {A} a.
Arguments NullDeref {A}.

(** ** [operator==] *)
Section Equality.
Context {T : Type}.
Variable eqb : T -> T -> bool.

(** The laws of [operator==] that some of the properties rely on. *)
Definition eqb_reflexive : Prop := forall x, eqb x x = true.
Definition eqb_symmetric : Prop := forall x y, eqb x y = true -> eqb y x = true.

End Equality.

(** ** [class BtreeNode<T>] *)
Module Node.
Section Defs.
Context {T : Type}.
(** [operator==] of [T]. *)
Variable eqb : T -> T -> bool.

(** [BtreeCmp<T>]: [cmp toInsert cNode]. *)
Definition BtreeCmp : Type := T -> T -> bool.

(** The four data members, in declaration order. The induction principle
    that reaches through the child pointers is [BtreeNode_ind'] below. *)
#[local] Unset Elimination Schemes.
Inductive BtreeNode : Type :=
  mkNode { _left : option BtreeNode;
           _right : option BtreeNode;
           _value : T;
           _visited : bool }.
#[local] Set Elimination Schemes.

(** [BtreeValue<T>]. *)
Definition BtreeValue : Type := option BtreeNode.

(** Both constructors: children null, [_visited = false]. *)
Definition new (value : T) : BtreeNode := mkNode None None value false.

(** [makeNode]: a freshly allocated node owned by the returned pointer. *)
Definition makeNode (value : T) : BtreeValue := Some (new value).

Definition get (this : BtreeNode) : T := _value this.
Definition left (this : BtreeNode) : BtreeValue := _left this.
Definition right (this : BtreeNode) : BtreeValue := _right this.
Definition isVisited (this : BtreeNode) : bool := _visited this.

(** [void insert(T&, const BtreeCmp<T>&, const bool&)]; the overload
    taking [T&&] has the same body. Returns the new state of [*this]. *)
Fixpoint insert (value : T) (cmp : BtreeCmp) (allow_duplicates : bool)
         (this : BtreeNode) {struct this} : BtreeNode :=
  match this with
  | mkNode l r v vis =>
      if negb allow_duplicates && eqb value v then this
      else if cmp value v then
        match l with
        | Some ln => mkNode (Some (insert value cmp allow_duplicates ln)) r v vis
        | None => mkNode (makeNode value) r v vis
        end
      else
        match r with
        | Some rn => mkNode l (Some (insert value cmp allow_duplicates rn)) v vis
        | None => mkNode l (makeNode value) v vis
        end
  end.

(** [BtreeSearchResult<T> search(const T&, const BtreeCmp<T>&)], the
    overload that is not [const]: the result and the new state of
    [*this]. The result stands for the reference to the [_value] found. *)
Fixpoint search (value : T) (cmp : BtreeCmp) (this : BtreeNode)
         {struct this} : option T * BtreeNode :=
  match this with
  | mkNode l r v vis =>
      if eqb v value then (Some v, this)
      else if cmp value v then
        match l with
        | Some ln =>
            let (res, ln') := search value cmp ln in
            (res, mkNode (Some ln') r v vis)
        | None => (None, this)
        end
      else
        match r with
        | Some rn =>
            let (res, rn') := search value cmp rn in
            (res, mkNode l (Some rn') v vis)
        | None => (None, this)
        end
  end.

(** [BtreeSearchResultConst<T> search(...) const]: [*this] is read only. *)
Fixpoint search_const (value : T) (cmp : BtreeCmp) (this : BtreeNode)
         {struct this} : option T :=
  match this with
  | mkNode l r v vis =>
      if eqb v value then Some v
      else if cmp value v then
        match l with
        | Some ln => search_const value cmp ln
        | None => None
        end
      else
        match r with
        | Some rn => search_const value cmp rn
        | None => None
        end
  end.

(** [void unvisit(const bool& unvisitSubNodes = false)]. *)
Fixpoint unvisit (unvisitSubNodes : bool) (this : BtreeNode)
         {struct this} : BtreeNode :=
  match this with
  | mkNode l r v _ =>
      if unvisitSubNodes then
        mkNode (match l with
                | Some ln => Some (unvisit unvisitSubNodes ln)
                | None => None
                end)
               (match r with
                | Some rn => Some (unvisit unvisitSubNodes rn)
                | None => None
                end)
               v false
      else mkNode l r v false
  end.

(** [void visit()]. *)
Definition visit (this : BtreeNode) : BtreeNode :=
  mkNode (_left this) (_right this) (_value this) true.

(** *** Observations on a node and its descendants *)

(** [P] holds of the node a child pointer owns, if any. *)
Definition opt_all (P : BtreeNode -> Prop) (o : BtreeValue) : Prop :=
  match o with
  | Some n => P n
  | None => True
  end.

(** Induction through the two child pointers. *)
Fixpoint BtreeNode_ind' (P : BtreeNode -> Prop)
         (step : forall l r v vis,
             opt_all P l -> opt_all P r -> P (mkNode l r v vis))
         (n : BtreeNode) {struct n} : P n :=
  match n with
  | mkNode l r v vis =>
      step l r v vis
           (match l return opt_all P l with
            | Some ln => BtreeNode_ind' P step ln
            | None => I
            end)
           (match r return opt_all P r with
            | Some rn => BtreeNode_ind' P step rn
            | None => I
            end)
  end.

(** Number of nodes. *)
Fixpoint size (n : BtreeNode) : nat :=
  match n with
  | mkNode l r _ _ =>
      S ((match l with Some ln => size ln | None => 0 end)
         + (match r with Some rn => size rn | None => 0 end))
  end.

(** Number of nodes on the longest path downwards. *)
Fixpoint height (n : BtreeNode) : nat :=
  match n with
  | mkNode l r _ _ =>
      S (Nat.max (match l with Some ln => height ln | None => 0 end)
                 (match r with Some rn => height rn | None => 0 end))
  end.

(** [x] is the [_value] of the node or of one of its descendants. *)
Fixpoint stored (x : T) (n : BtreeNode) : Prop :=
  match n with
  | mkNode l r v _ =>
      x = v
      \/ (match l with Some ln => stored x ln | None => False end)
      \/ (match r with Some rn => stored x rn | None => False end)
  end.

(** [P] holds of the node and of each of its descendants. *)
Fixpoint all_nodes (P : BtreeNode -> Prop) (n : BtreeNode) : Prop :=
  match n with
  | mkNode l r _ _ =>
      P n
      /\ (match l with Some ln => all_nodes P ln | None => True end)
      /\ (match r with Some rn => all_nodes P rn | None => True end)
  end.

(** Same shape and same values, node by node; the flags are ignored. *)
Fixpoint same_structure (a b : BtreeNode) : Prop :=
  match a, b with
  | mkNode la ra va _, mkNode lb rb vb _ =>
      va = vb
      /\ (match la, lb with
          | Some x, Some y => same_structure x y
          | None, None => True
          | _, _ => False
          end)
      /\ (match ra, rb with
          | Some x, Some y => same_structure x y
          | None, None => True
          | _, _ => False
          end)
  end.

(** The partition of a node's descendants by the comparator: what is
    below [_left] went left at this node, what is below [_right] went
    right, and so on downwards. *)
Fixpoint partitioned (cmp : BtreeCmp) (n : BtreeNode) : Prop :=
  match n with
  | mkNode l r v _ =>
      (match l with
       | Some ln => (forall x, stored x ln -> cmp x v = true) /\ partitioned cmp ln
       | None => True
       end)
      /\ (match r with
          | Some rn => (forall x, stored x rn -> cmp x v = false) /\ partitioned cmp rn
          | None => True
          end)
  end.

(** The search as the specification words it: one rule per sentence. *)
Inductive search_spec (cmp : BtreeCmp) (value : T) :
  BtreeNode -> option T -> Prop :=
| spec_found : forall n,
    eqb (_value n) value = true ->
    search_spec cmp value n (Some (_value n))
| spec_left : forall n ln res,
    eqb (_value n) value = false ->
    cmp value (_value n) = true ->
    _left n = Some ln ->
    search_spec cmp value ln res ->
    search_spec cmp value n res
| spec_left_absent : forall n,
    eqb (_value n) value = false ->
    cmp value (_value n) = true ->
    _left n = None ->
    search_spec cmp value n None
| spec_right : forall n rn res,
    eqb (_value n) value = false ->
    cmp value (_value n) = false ->
    _right n = Some rn ->
    search_spec cmp value rn res ->
    search_spec cmp value n res
| spec_right_absent : forall n,
    eqb (_value n) value = false ->
    cmp value (_value n) = false ->
    _right n = None ->
    search_spec cmp value n None.

(** [search] for [value] does not come back empty-handed. *)
Definition hits (value : T) (cmp : BtreeCmp) (n : BtreeNode) : Prop :=
  exists x, search_const value cmp n = Some x.

(** The values of the node and of its descendants: the node's, then
    those below [_left], then those below [_right]. *)
Fixpoint values (n : BtreeNode) : list T :=
  match n with
  | mkNode l r v _ =>
      v :: (match l with Some ln => values ln | None => [] end)
        ++ (match r with Some rn => values rn | None => [] end)
  end.

(** [b] is [a] with, possibly, nodes added where [a] has a null child:
    every node of [a] is in [b] at the same place, with its value and
    its flag. *)
Fixpoint extends (a b : BtreeNode) : Prop :=
  match a, b with
  | mkNode la ra va fa, mkNode lb rb vb fb =>
      va = vb /\ fa = fb
      /\ (match la, lb with
          | Some x, Some y => extends x y
          | Some _, None => False
          | None, _ => True
          end)
      /\ (match ra, rb with
          | Some x, Some y => extends x y
          | Some _, None => False
          | None, _ => True
          end)
  end.

(** *** The calls with a bound on the depth of the recursion

    [fuel] is the number of nested activations the call may use; [None]
    means that the bound was reached before the call returned. *)

Fixpoint insert_fuel (fuel : nat) (value : T) (cmp : BtreeCmp)
         (allow_duplicates : bool) (this : BtreeNode) : option BtreeNode :=
  match fuel with
  | O => None
  | S fuel' =>
      if negb allow_duplicates && eqb value (_value this) then Some this
      else if cmp value (_value this) then
        match _left this with
        | Some ln =>
            match insert_fuel fuel' value cmp allow_duplicates ln with
            | Some ln' =>
                Some (mkNode (Some ln') (_right this) (_value this) (_visited this))
            | None => None
            end
        | None =>
            Some (mkNode (makeNode value) (_right this) (_value this) (_visited this))
        end
      else
        match _right this with
        | Some rn =>
            match insert_fuel fuel' value cmp allow_duplicates rn with
            | Some rn' =>
                Some (mkNode (_left this) (Some rn') (_value this) (_visited this))
            | None => None
            end
        | None =>
            Some (mkNode (_left this) (makeNode value) (_value this) (_visited this))
        end
  end.

Fixpoint search_fuel (fuel : nat) (value : T) (cmp : BtreeCmp)
         (this : BtreeNode) : option (option T * BtreeNode) :=
  match fuel with
  | O => None
  | S fuel' =>
      if eqb (_value this) value then Some (Some (_value this), this)
      else if cmp value (_value this) then
        match _left this with
        | Some ln =>
            match search_fuel fuel' value cmp ln with
            | Some (res, ln') =>
                Some (res, mkNode (Some ln') (_right this) (_value this) (_visited this))
            | None => None
            end
        | None => Some (None, this)
        end
      else
        match _right this with
        | Some rn =>
            match search_fuel fuel' value cmp rn with
            | Some (res, rn') =>
                Some (res, mkNode (_left this) (Some rn') (_value this) (_visited this))
            | None => None
            end
        | None => Some (None, this)
        end
  end.

Fixpoint unvisit_fuel (fuel : nat) (unvisitSubNodes : bool)
         (this : BtreeNode) : option BtreeNode :=
  match fuel with
  | O => None
  | S fuel' =>
      if unvisitSubNodes then
        match (match _left this with
               | Some ln =>
                   match unvisit_fuel fuel' unvisitSubNodes ln with
                   | Some ln' => Some (Some ln')
                   | None => None
                   end
               | None => Some None
               end) with
        | Some l' =>
            match (match _right this with
                   | Some rn =>
                       match unvisit_fuel fuel' unvisitSubNodes rn with
                       | Some rn' => Some (Some rn')
                       | None => None
                       end
                   | None => Some None
                   end) with
            | Some r' => Some (mkNode l' r' (_value this) false)
            | None => None
            end
        | None => None
        end
      else Some (mkNode (_left this) (_right this) (_value this) false)
  end.

End Defs.
End Node.

(** ** [class Btree<T>] *)
Module Tree.
Section Defs.
Context {T : Type}.
Variable eqb : T -> T -> bool.

(** The three data members, in declaration order. *)
Record Btree : Type :=
  mkBtree { _root : Node.BtreeValue (T := T);
            _cmp : Node.BtreeCmp (T := T);
            _allow_duplicates : bool }.

(** [Btree(const BtreeCmp<T>& cmp, const bool& allow_duplicates = true)]. *)
Definition new (cmp : Node.BtreeCmp) (allow_duplicates : bool) : Btree :=
  mkBtree None cmp allow_duplicates.

(** [Btree& insert(T&)] and [Btree& insert(T&&)]: the new state of
    [*this], which is also the object the returned reference designates. *)
Definition insert (value : T) (this : Btree) : Btree :=
  match _root this with
  | None =>
      mkBtree (Node.makeNode value) (_cmp this) (_allow_duplicates this)
  | Some rn =>
      mkBtree (Some (Node.insert eqb value (_cmp this) (_allow_duplicates this) rn))
              (_cmp this) (_allow_duplicates this)
  end.

(** [BtreeSearchResult<T> search(const T&)], not [const]. *)
Definition search (value : T) (this : Btree) : option T * Btree :=
  match _root this with
  | Some rn =>
      let (res, rn') := Node.search eqb value (_cmp this) rn in
      (res, mkBtree (Some rn') (_cmp this) (_allow_duplicates this))
  | None => (None, this)
  end.

(** [BtreeSearchResultConst<T> search(const T&) const]. *)
Definition search_const (value : T) (this : Btree) : option T :=
  match _root this with
  | Some rn => Node.search_const eqb value (_cmp this) rn
  | None => None
  end.

Definition root (this : Btree) : Node.BtreeValue := _root this.

(** [Btree& unvisitNodes()]: [_root->unvisit(true)] with no test of
    [_root]. *)
Definition unvisitNodes (this : Btree) : Outcome Btree :=
  match _root this with
  | Some rn =>
      Ok (mkBtree (Some (Node.unvisit true rn)) (_cmp this) (_allow_duplicates this))
  | None => NullDeref
  end.

(** Inserting the values of a list from left to right, each insert
    chained on the reference the previous one returned. *)
Definition insert_all (values : list T) (this : Btree) : Btree :=
  fold_left (fun t value => insert value t) values this.

(** *** Observations on a tree *)

Definition height (this : Btree) : nat :=
  match _root this with
  | Some rn => Node.height rn
  | None => 0
  end.

Definition size (this : Btree) : nat :=
  match _root this with
  | Some rn => Node.size rn
  | None => 0
  end.

Definition stored (x : T) (this : Btree) : Prop :=
  match _root this with
  | Some rn => Node.stored x rn
  | None => False
  end.

Definition partitioned (this : Btree) : Prop :=
  Node.opt_all (Node.partitioned (_cmp this)) (_root this).

Definition hits (value : T) (this : Btree) : Prop :=
  exists x, search_const value this = Some x.

Definition values (this : Btree) : list T :=
  match _root this with
  | Some rn => Node.values rn
  | None => []
  end.

(** No node of the tree has its flag set. *)
Definition unvisited (this : Btree) : Prop :=
  Node.opt_all (Node.all_nodes (fun m => Node.isVisited m = false)) (_root this).

(** *** The calls with a bound on the depth of the recursion: the call
    on the tree is one activation, the rest is left to the root's. *)

Definition insert_fuel (fuel : nat) (value : T) (this : Btree) : option Btree :=
  match fuel with
  | O => None
  | S fuel' =>
      match _root this with
      | None =>
          Some (mkBtree (Node.makeNode value) (_cmp this) (_allow_duplicates this))
      | Some rn =>
          match Node.insert_fuel eqb fuel' value (_cmp this) (_allow_duplicates this) rn with
          | Some rn' => Some (mkBtree (Some rn') (_cmp this) (_allow_duplicates this))
          | None => None
          end
      end
  end.

Definition search_fuel (fuel : nat) (value : T) (this : Btree) :
  option (option T * Btree) :=
  match fuel with
  | O => None
  | S fuel' =>
      match _root this with
      | Some rn =>
          match Node.search_fuel eqb fuel' value (_cmp this) rn with
          | Some (res, rn') =>
              Some (res, mkBtree (Some rn') (_cmp this) (_allow_duplicates this))
          | None => None
          end
      | None => Some (None, this)
      end
  end.

Definition unvisitNodes_fuel (fuel : nat) (this : Btree) : option (Outcome Btree) :=
  match fuel with
  | O => None
  | S fuel' =>
      match _root this with
      | Some rn =>
          match Node.unvisit_fuel fuel' true rn with
          | Some rn' =>
              Some (Ok (mkBtree (Some rn') (_cmp this) (_allow_duplicates this)))
          | None => None
          end
      | None => Some NullDeref
      end
  end.

End Defs.
End Tree.

(** ** The scenario of the specification: [int] values, [cmp(a, b) = a < b] *)
Module Scenario.
Open Scope Z_scope.

Definition cmp (a b : Z) : bool := a <? b.

(** [Btree<int> t(cmp, allow_duplicates); t.insert(5).insert(3).insert(8).insert(1);] *)
Definition tree (allow_duplicates : bool) : Tree.Btree :=
  Tree.insert_all Z.eqb [5; 3; 8; 1] (Tree.new cmp allow_duplicates).

(** A tree whose nodes have all been visited. *)
Definition visited_tree : Tree.Btree :=
  Tree.mkBtree
    (Some (Node.mkNode (Some (Node.visit (Node.new 3))) None 5 true))
    cmp true.

(** [Btree<double> t(lt, allow_duplicates); t.insert(1.0).insert(NAN);]
    with [lt(a, b) = a < b]: [==] and [<] on [double] are the comparisons
    of IEEE 754 binary64, for which a NaN equals nothing, itself
    included, and is below nothing. *)
Definition nan_tree (allow_duplicates : bool) : Tree.Btree :=
  Tree.insert_all PrimFloat.eqb [PrimFloat.one; PrimFloat.nan]
                  (Tree.new PrimFloat.ltb allow_duplicates).

End Scenario.

(** * Properties *)

Section Theory.
Context {T : Type}.
Variable eqb : T -> T -> bool.

#[local] Abbreviation BtreeNode := (Node.BtreeNode (T := T)).
#[local] Abbreviation Btree := (Tree.Btree (T := T)).
#[local] Abbreviation BtreeCmp := (Node.BtreeCmp (T := T)).

(** ** The two overloads of [search] *)

Lemma Node_search_unfold (value : T) (cmp : BtreeCmp) (n : BtreeNode) :
  Node.search eqb value cmp n =
  (Node.search_const eqb value cmp n, n).
Proof.
  induction n as [l r v vis IHl IHr] using Node.BtreeNode_ind'.
  simpl. destruct (eqb v value); [reflexivity|].
  destruct (cmp value v).
  - destruct l as [ln|]; [|reflexivity]. simpl in IHl. rewrite IHl. reflexivity.
  - destruct r as [rn|]; [|reflexivity]. simpl in IHr. rewrite IHr. reflexivity.
Qed.

Lemma Tree_search_unfold (value : T) (t : Btree) :
  Tree.search eqb value t = (Tree.search_const eqb value t, t).
Proof.
  destruct t as [[rn|] cmp ad]; unfold Tree.search, Tree.search_const; simpl.
  - rewrite Node_search_unfold. reflexivity.
  - reflexivity.
Qed.

(** C10: [search] returns with the node, respectively the tree, in the
    state in which it was called: same structure, same values, same
    visited flags (and same comparator and duplicate policy). It holds of
    the overload that is not [const]; the result is the one of the
    [const] overload. *)
Theorem search_leaves_tree_unchanged :
  (forall (value : T) (cmp : BtreeCmp) (n : BtreeNode),
      snd (Node.search eqb value cmp n) = n
      /\ fst (Node.search eqb value cmp n) = Node.search_const eqb value cmp n)
  /\ (forall (value : T) (t : Btree),
         snd (Tree.search eqb value t) = t
         /\ fst (Tree.search eqb value t) = Tree.search_const eqb value t).
Proof.
  split; intros.
  - rewrite Node_search_unfold. split; reflexivity.
  - rewrite Tree_search_unfold. split; reflexivity.
Qed.

(** ** [search] against its specification *)

Lemma Node_search_const_spec (value : T) (cmp : BtreeCmp) (n : BtreeNode) :
  Node.search_spec eqb cmp value n (Node.search_const eqb value cmp n).
Proof.
  induction n as [l r v vis IHl IHr] using Node.BtreeNode_ind'.
  simpl. destruct (eqb v value) eqn:He.
  - apply (Node.spec_found eqb cmp value (Node.mkNode l r v vis)). exact He.
  - destruct (cmp value v) eqn:Hc.
    + destruct l as [ln|].
      * apply Node.spec_left with (ln := ln); [exact He|exact Hc|reflexivity|exact IHl].
      * apply Node.spec_left_absent; [exact He|exact Hc|reflexivity].
    + destruct r as [rn|].
      * apply Node.spec_right with (rn := rn); [exact He|exact Hc|reflexivity|exact IHr].
      * apply Node.spec_right_absent; [exact He|exact Hc|reflexivity].
Qed.

Lemma Node_search_spec_fun (value : T) (cmp : BtreeCmp) (n : BtreeNode)
      (res : option T) :
  Node.search_spec eqb cmp value n res ->
  Node.search_const eqb value cmp n = res.
Proof.
  induction 1 as [n He|n ln res He Hc Hl _ IH|n He Hc Hl
                  |n rn res He Hc Hr _ IH|n He Hc Hr];
    destruct n as [l r v vis]; simpl in *; rewrite He; try rewrite Hc;
    subst; reflexivity.
Qed.

(** C5: on a tree without a root [search] returns absent at once; on a
    tree with a root it is the root's [search]; and a node's [search]
    returns exactly what the specification's rules derive: the node's own
    value when it equals the query, otherwise the result of the one child
    the comparator selects, absent when that child is absent. *)
Theorem search_follows_one_path :
  (forall (value : T) (cmp : BtreeCmp) (ad : bool),
      Tree.search eqb value (Tree.mkBtree None cmp ad)
      = (None, Tree.mkBtree None cmp ad))
  /\ (forall (value : T) (rn : BtreeNode) (cmp : BtreeCmp) (ad : bool),
         fst (Tree.search eqb value (Tree.mkBtree (Some rn) cmp ad))
         = fst (Node.search eqb value cmp rn))
  /\ (forall (value : T) (cmp : BtreeCmp) (n : BtreeNode) (res : option T),
         fst (Node.search eqb value cmp n) = res
         <-> Node.search_spec eqb cmp value n res).
Proof.
  split; [reflexivity|]. split.
  - intros. rewrite Tree_search_unfold, Node_search_unfold. reflexivity.
  - intros. rewrite Node_search_unfold. simpl. split.
    + intros <-. apply Node_search_const_spec.
    + apply Node_search_spec_fun.
Qed.

(** ** What an insert stores, a later search finds *)

(** What [search] returns is a stored value that [operator==] accepts. *)
Lemma Node_search_const_sound (value x : T) (cmp : BtreeCmp) (n : BtreeNode) :
  Node.search_const eqb value cmp n = Some x ->
  eqb x value = true /\ Node.stored x n.
Proof.
  induction n as [l r v vis IHl IHr] using Node.BtreeNode_ind'.
  simpl. destruct (eqb v value) eqn:He.
  - intros [= <-]. auto.
  - destruct (cmp value v).
    + destruct l as [ln|]; [|discriminate]. intros Hs.
      destruct (IHl Hs). auto.
    + destruct r as [rn|]; [|discriminate]. intros Hs.
      destruct (IHr Hs). auto.
Qed.

Lemma hits_new (value : T) (cmp : BtreeCmp) :
  eqb_reflexive eqb -> Node.hits eqb value cmp (Node.new value).
Proof.
  intros Hrefl. exists value. simpl. rewrite Hrefl. reflexivity.
Qed.

Lemma Node_insert_hits (value : T) (cmp : BtreeCmp) (ad : bool) (n : BtreeNode) :
  eqb_reflexive eqb -> (ad = false -> eqb_symmetric eqb) ->
  Node.hits eqb value cmp (Node.insert eqb value cmp ad n).
Proof.
  intros Hrefl Hsym. unfold Node.hits.
  induction n as [l r v vis IHl IHr] using Node.BtreeNode_ind'.
  simpl. destruct (negb ad && eqb value v) eqn:Hdup.
  - apply andb_true_iff in Hdup as [Had He].
    apply negb_true_iff in Had. apply (Hsym Had) in He.
    exists v. simpl. rewrite He. reflexivity.
  - destruct (eqb v value) eqn:He.
    + exists v. destruct (cmp value v); [destruct l|destruct r];
        simpl; rewrite He; reflexivity.
    + destruct (cmp value v) eqn:Hc.
      * destruct l as [ln|]; simpl; rewrite He, Hc.
        -- exact IHl.
        -- apply (hits_new value cmp Hrefl).
      * destruct r as [rn|]; simpl; rewrite He, Hc.
        -- exact IHr.
        -- apply (hits_new value cmp Hrefl).
Qed.

Lemma Node_insert_keeps_hits (value w : T) (cmp : BtreeCmp) (ad : bool)
      (n : BtreeNode) :
  Node.hits eqb value cmp n -> Node.hits eqb value cmp (Node.insert eqb w cmp ad n).
Proof.
  unfold Node.hits.
  induction n as [l r v vis IHl IHr] using Node.BtreeNode_ind'.
  intros Hf. simpl. destruct (negb ad && eqb w v); [exact Hf|].
  simpl in Hf. destruct (eqb v value) eqn:He.
  - destruct (cmp w v); [destruct l|destruct r]; simpl; rewrite He; exact Hf.
  - destruct (cmp value v) eqn:Hcv.
    + destruct l as [ln|]; [|destruct Hf; discriminate].
      destruct (cmp w v); [|destruct r]; simpl; rewrite He, Hcv; auto.
    + destruct r as [rn|]; [|destruct Hf; discriminate].
      destruct (cmp w v); [destruct l|]; simpl; rewrite He, Hcv; auto.
Qed.

Lemma Tree_insert_cmp (value : T) (t : Btree) :
  Tree._cmp (Tree.insert eqb value t) = Tree._cmp t.
Proof. unfold Tree.insert. destruct (Tree._root t); reflexivity. Qed.

Lemma Tree_insert_policy (value : T) (t : Btree) :
  Tree._allow_duplicates (Tree.insert eqb value t) = Tree._allow_duplicates t.
Proof. unfold Tree.insert. destruct (Tree._root t); reflexivity. Qed.

Lemma Tree_insert_hits (value : T) (t : Btree) :
  eqb_reflexive eqb -> (Tree._allow_duplicates t = false -> eqb_symmetric eqb) ->
  Tree.hits eqb value (Tree.insert eqb value t).
Proof.
  intros Hrefl Hsym. destruct t as [[rn|] cmp ad]; unfold Tree.hits; simpl.
  - apply Node_insert_hits; assumption.
  - apply hits_new; assumption.
Qed.

Lemma Tree_insert_keeps_hits (value w : T) (t : Btree) :
  Tree.hits eqb value t -> Tree.hits eqb value (Tree.insert eqb w t).
Proof.
  destruct t as [[rn|] cmp ad]; unfold Tree.hits; simpl.
  - apply Node_insert_keeps_hits.
  - intros [x Hx]. discriminate.
Qed.

Lemma Tree_insert_all_keeps_hits (value : T) (values : list T) (t : Btree) :
  Tree.hits eqb value t -> Tree.hits eqb value (Tree.insert_all eqb values t).
Proof.
  revert t. induction values as [|w ws IH]; intros t Ht; simpl.
  - exact Ht.
  - apply IH. apply Tree_insert_keeps_hits. exact Ht.
Qed.

Lemma Tree_insert_all_hits (value : T) (values : list T) (t : Btree) :
  eqb_reflexive eqb -> (Tree._allow_duplicates t = false -> eqb_symmetric eqb) ->
  In value values -> Tree.hits eqb value (Tree.insert_all eqb values t).
Proof.
  intros Hrefl. revert t.
  induction values as [|w ws IH]; intros t Hsym Hin; simpl in *.
  - contradiction.
  - destruct Hin as [->|Hin].
    + apply Tree_insert_all_keeps_hits. apply Tree_insert_hits; assumption.
    + apply IH; [|exact Hin]. rewrite Tree_insert_policy. exact Hsym.
Qed.

Lemma Tree_search_const_sound (value x : T) (t : Btree) :
  Tree.search_const eqb value t = Some x ->
  eqb x value = true /\ Tree.stored x t.
Proof.
  destruct t as [[rn|] cmp ad]; unfold Tree.search_const, Tree.stored; simpl.
  - apply Node_search_const_sound.
  - discriminate.
Qed.

(** X18: with [operator==] reflexive (and, when duplicates are refused,
    symmetric), after the values of any list have been inserted one after
    the other into any tree, [search v] returns, for every [v] of the
    list, the refused duplicates included, a value stored in the tree
    that [operator==] finds equal to [v], under either duplicate policy. *)
Theorem search_finds_every_inserted_value
        (values : list T) (t : Btree) (v : T) :
  eqb_reflexive eqb ->
  (Tree._allow_duplicates t = false -> eqb_symmetric eqb) ->
  In v values ->
  exists x,
    fst (Tree.search eqb v (Tree.insert_all eqb values t)) = Some x
    /\ eqb x v = true
    /\ Tree.stored x (Tree.insert_all eqb values t).
Proof.
  intros Hrefl Hsym Hin.
  destruct (Tree_insert_all_hits v values t Hrefl Hsym Hin) as [x Hx].
  exists x. rewrite Tree_search_unfold. simpl. split; [exact Hx|].
  apply Tree_search_const_sound with (1 := Hx).
Qed.

(** An insert that the duplicate test cannot refuse, because duplicates
    are allowed or because [value] equals nothing the node holds, puts
    [value] where [search] finds it, provided [value] equals itself. *)
Lemma Node_insert_hits_first (value : T) (cmp : BtreeCmp) (ad : bool)
      (n : BtreeNode) :
  eqb value value = true ->
  (ad = true \/ forall w, Node.stored w n -> eqb value w = false) ->
  Node.hits eqb value cmp (Node.insert eqb value cmp ad n).
Proof.
  intros Hvv. unfold Node.hits.
  induction n as [l r v vis IHl IHr] using Node.BtreeNode_ind'.
  intros Hfirst. simpl.
  assert (Hdup : negb ad && eqb value v = false).
  { destruct Hfirst as [->|Hw]; [reflexivity|].
    rewrite (Hw v) by (simpl; auto). apply andb_false_r. }
  rewrite Hdup. destruct (eqb v value) eqn:He.
  - exists v. destruct (cmp value v); [destruct l|destruct r];
      simpl; rewrite He; reflexivity.
  - destruct (cmp value v) eqn:Hc.
    + destruct l as [ln|]; simpl; rewrite He, Hc.
      * apply IHl. destruct Hfirst as [Had|Hw]; [auto|right].
        intros w Hst. apply Hw. simpl. auto.
      * exists value. simpl. rewrite Hvv. reflexivity.
    + destruct r as [rn|]; simpl; rewrite He, Hc.
      * apply IHr. destruct Hfirst as [Had|Hw]; [auto|right].
        intros w Hst. apply Hw. simpl. auto.
      * exists value. simpl. rewrite Hvv. reflexivity.
Qed.

Lemma Tree_insert_hits_first (value : T) (t : Btree) :
  eqb value value = true ->
  (Tree._allow_duplicates t = true
   \/ forall w, Tree.stored w t -> eqb value w = false) ->
  Tree.hits eqb value (Tree.insert eqb value t).
Proof.
  intros Hvv. destruct t as [[rn|] cmp ad];
    unfold Tree.hits, Tree.stored, Tree.search_const, Tree.insert; simpl.
  - apply Node_insert_hits_first. exact Hvv.
  - intros _. exists value. rewrite Hvv. reflexivity.
Qed.

Lemma Tree_insert_all_policy (values : list T) (t : Btree) :
  Tree._allow_duplicates (Tree.insert_all eqb values t)
  = Tree._allow_duplicates t.
Proof.
  revert t. induction values as [|w ws IH]; intros t; simpl.
  - reflexivity.
  - rewrite IH. apply Tree_insert_policy.
Qed.

(** C1, amended: a value [v] that equals itself for [operator==] and was
    inserted with duplicates allowed, or was inserted first when they
    are refused (nothing the tree held when [v] was inserted was equal to
    it for the insert's test), is found by [search v] after any further
    inserts: the answer is a value stored in the tree that [operator==]
    finds equal to [v]. *)
Theorem search_finds_value_inserted_first
        (before after : list T) (t : Btree) (v : T) :
  eqb v v = true ->
  (Tree._allow_duplicates t = true
   \/ forall w, Tree.stored w (Tree.insert_all eqb before t) ->
                eqb v w = false) ->
  exists x,
    fst (Tree.search eqb v (Tree.insert_all eqb (before ++ v :: after) t))
    = Some x
    /\ eqb x v = true
    /\ Tree.stored x (Tree.insert_all eqb (before ++ v :: after) t).
Proof.
  intros Hvv Hfirst.
  assert (Hhit : Tree.hits eqb v (Tree.insert_all eqb (before ++ v :: after) t)).
  { unfold Tree.insert_all. rewrite fold_left_app. simpl.
    apply Tree_insert_all_keeps_hits. apply Tree_insert_hits_first.
    - exact Hvv.
    - destruct Hfirst as [Had|Hw]; [left|right; exact Hw].
      rewrite <- Had. apply Tree_insert_all_policy. }
  destruct Hhit as [x Hx]. exists x. rewrite Tree_search_unfold. simpl.
  split; [exact Hx|]. apply Tree_search_const_sound with (1 := Hx).
Qed.

(** ** [insert] *)

(** A node's [insert] leaves the node itself where and as it is: its
    value and its flag are not written. *)
Lemma Node_insert_keeps_node (value : T) (cmp : BtreeCmp) (ad : bool)
      (n : BtreeNode) :
  Node._value (Node.insert eqb value cmp ad n) = Node._value n
  /\ Node._visited (Node.insert eqb value cmp ad n) = Node._visited n.
Proof.
  destruct n as [l r v vis]. simpl.
  destruct (negb ad && eqb value v); [auto|].
  destruct (cmp value v); [destruct l|destruct r]; auto.
Qed.

(** C2: on a tree without a root, [insert] makes a fresh node holding
    the value the root; on a tree with a root, the root after the call
    is what the root node's [insert] makes of it, called with the tree's
    comparator and duplicate policy, and it is the same node still: its
    value and its flag are those of before. In both cases the tree
    returned is the tree the call was made on, with its comparator and
    its policy. *)
Theorem insert_makes_root_or_delegates
        (value : T) (cmp : BtreeCmp) (ad : bool) :
  Tree.insert eqb value (Tree.mkBtree None cmp ad)
  = Tree.mkBtree (Some (Node.new value)) cmp ad
  /\ (forall rn : BtreeNode,
         Tree.insert eqb value (Tree.mkBtree (Some rn) cmp ad)
         = Tree.mkBtree (Some (Node.insert eqb value cmp ad rn)) cmp ad
         /\ Node._value (Node.insert eqb value cmp ad rn) = Node._value rn
         /\ Node._visited (Node.insert eqb value cmp ad rn) = Node._visited rn).
Proof.
  split; [reflexivity|]. intros rn. split; [reflexivity|].
  apply Node_insert_keeps_node.
Qed.




(** ** The partition by the comparator *)

Lemma Node_insert_stored (x value : T) (cmp : BtreeCmp) (ad : bool)
      (n : BtreeNode) :
  Node.stored x (Node.insert eqb value cmp ad n) ->
  x = value \/ Node.stored x n.
Proof.
  induction n as [l r v vis IHl IHr] using Node.BtreeNode_ind'.
  simpl. destruct (negb ad && eqb value v); [auto|].
  destruct (cmp value v).
  - destruct l as [ln|]; simpl in *; intros [H|[H|H]]; tauto.
  - destruct r as [rn|]; simpl in *; intros [H|[H|H]]; tauto.
Qed.

Lemma Node_insert_partitioned (value : T) (cmp : BtreeCmp) (ad : bool)
      (n : BtreeNode) :
  Node.partitioned cmp n ->
  Node.partitioned cmp (Node.insert eqb value cmp ad n).
Proof.
  induction n as [l r v vis IHl IHr] using Node.BtreeNode_ind'.
  intros Hp. simpl. destruct (negb ad && eqb value v); [exact Hp|].
  simpl in Hp. destruct Hp as [Hl Hr].
  destruct (cmp value v) eqn:Hc.
  - destruct l as [ln|]; simpl; (split; [|exact Hr]).
    + destruct Hl as [Hl1 Hl2]. split; [|apply IHl; exact Hl2].
      intros x Hx. apply Node_insert_stored in Hx as [->|Hx]; auto.
    + split; [|tauto]. intros x [->|[[]|[]]]. exact Hc.
  - destruct r as [rn|]; simpl; (split; [exact Hl|]).
    + destruct Hr as [Hr1 Hr2]. split; [|apply IHr; exact Hr2].
      intros x Hx. apply Node_insert_stored in Hx as [->|Hx]; auto.
    + split; [|tauto]. intros x [->|[[]|[]]]. exact Hc.
Qed.

Lemma Tree_insert_partitioned (value : T) (t : Btree) :
  Tree.partitioned t -> Tree.partitioned (Tree.insert eqb value t).
Proof.
  destruct t as [[rn|] cmp ad]; unfold Tree.partitioned; simpl.
  - apply Node_insert_partitioned.
  - tauto.
Qed.

Lemma Tree_insert_all_partitioned (values : list T) (t : Btree) :
  Tree.partitioned t -> Tree.partitioned (Tree.insert_all eqb values t).
Proof.
  revert t. induction values as [|w ws IH]; intros t Ht; simpl.
  - exact Ht.
  - apply IH. apply Tree_insert_partitioned. exact Ht.
Qed.

(** C6: in a tree built by inserts from the empty tree, at every node
    each value below the left child answers [true] to the comparator
    against the node's value and each value below the right child answers
    [false]; every insert preserves this. The comparator is a function,
    so its answer is the one it gave when the value was inserted. *)
Theorem insert_preserves_partition :
  (forall (cmp : BtreeCmp) (ad : bool), Tree.partitioned (Tree.new cmp ad))
  /\ (forall (value : T) (t : Btree),
         Tree.partitioned t -> Tree.partitioned (Tree.insert eqb value t))
  /\ (forall (values : list T) (cmp : BtreeCmp) (ad : bool),
         Tree.partitioned (Tree.insert_all eqb values (Tree.new cmp ad))).
Proof.
  split; [intros; exact I|]. split.
  - apply Tree_insert_partitioned.
  - intros. apply Tree_insert_all_partitioned. exact I.
Qed.

(** ** The visited flags *)

Lemma Node_unvisit_clears (n : BtreeNode) :
  Node.all_nodes (fun m => Node.isVisited m = false) (Node.unvisit true n).
Proof.
  induction n as [l r v vis IHl IHr] using Node.BtreeNode_ind'.
  simpl. split; [reflexivity|].
  destruct l, r; simpl in *; auto.
Qed.

Lemma Node_unvisit_structure (b : bool) (n : BtreeNode) :
  Node.same_structure n (Node.unvisit b n).
Proof.
  induction n as [l r v vis IHl IHr] using Node.BtreeNode_ind'.
  destruct b; simpl.
  - split; [reflexivity|]. destruct l, r; simpl in *; auto.
  - clear IHl IHr. split; [reflexivity|].
    assert (Hrefl : forall m : BtreeNode, Node.same_structure m m).
    { induction m as [l' r' v' vis' IHl' IHr'] using Node.BtreeNode_ind'.
      simpl. split; [reflexivity|]. destruct l', r'; simpl in *; auto. }
    destruct l, r; simpl; auto.
Qed.

(** C7: on a tree that has a root, [unvisitNodes] returns normally, with
    the comparator and the duplicate policy as they were and a root under
    which every node answers [false] to [isVisited] and which has the
    shape and the values of the root before the call. *)
Theorem unvisitNodes_clears_every_flag
        (rn : BtreeNode) (cmp : BtreeCmp) (ad : bool) :
  exists rn' : BtreeNode,
    Tree.unvisitNodes (Tree.mkBtree (Some rn) cmp ad)
    = Ok (Tree.mkBtree (Some rn') cmp ad)
    /\ Node.all_nodes (fun m => Node.isVisited m = false) rn'
    /\ Node.same_structure rn rn'
    /\ Node.size rn' = Node.size rn.
Proof.
  exists (Node.unvisit true rn). split; [reflexivity|].
  split; [apply Node_unvisit_clears|].
  split; [apply Node_unvisit_structure|].
  induction rn as [l r v vis IHl IHr] using Node.BtreeNode_ind'.
  simpl. destruct l, r; simpl in *; congruence.
Qed.

(** ** Depth of the recursion *)

Lemma Node_insert_fuel_enough (value : T) (cmp : BtreeCmp) (ad : bool)
      (n : BtreeNode) (fuel : nat) :
  Node.height n <= fuel ->
  Node.insert_fuel eqb fuel value cmp ad n
  = Some (Node.insert eqb value cmp ad n).
Proof.
  revert fuel.
  induction n as [l r v vis IHl IHr] using Node.BtreeNode_ind'.
  intros [|fuel] Hh; simpl in Hh; [lia|]. simpl.
  destruct (negb ad && eqb value v); [reflexivity|].
  destruct (cmp value v).
  - destruct l as [ln|]; [|reflexivity]. simpl in IHl.
    rewrite IHl by lia. reflexivity.
  - destruct r as [rn|]; [|reflexivity]. simpl in IHr.
    rewrite IHr by lia. reflexivity.
Qed.

Lemma Node_search_fuel_enough (value : T) (cmp : BtreeCmp)
      (n : BtreeNode) (fuel : nat) :
  Node.height n <= fuel ->
  Node.search_fuel eqb fuel value cmp n = Some (Node.search eqb value cmp n).
Proof.
  revert fuel.
  induction n as [l r v vis IHl IHr] using Node.BtreeNode_ind'.
  intros [|fuel] Hh; simpl in Hh; [lia|]. simpl.
  destruct (eqb v value); [reflexivity|].
  destruct (cmp value v).
  - destruct l as [ln|]; [|reflexivity]. simpl in IHl.
    rewrite IHl by lia. destruct (Node.search eqb value cmp ln). reflexivity.
  - destruct r as [rn|]; [|reflexivity]. simpl in IHr.
    rewrite IHr by lia. destruct (Node.search eqb value cmp rn). reflexivity.
Qed.

Lemma Node_unvisit_fuel_enough (b : bool) (n : BtreeNode) (fuel : nat) :
  Node.height n <= fuel ->
  Node.unvisit_fuel fuel b n = Some (Node.unvisit b n).
Proof.
  revert fuel.
  induction n as [l r v vis IHl IHr] using Node.BtreeNode_ind'.
  intros [|fuel] Hh; simpl in Hh; [lia|]. simpl.
  destruct b; [|reflexivity].
  destruct l as [ln|], r as [rn|]; simpl in *;
    try rewrite IHl by lia; try rewrite IHr by lia; reflexivity.
Qed.

(** X19: wherever a call returns, it returns within a recursion depth
    of the height of what it is called on: given as many activations as
    the node is high, a node's [insert], [search] and [unvisit] return
    what the unbounded definitions return; given one more than the tree
    is high, so do the tree's [insert] and [search], and so does
    [unvisitNodes] on a tree that has a root. *)
Theorem calls_return_within_the_height :
  (forall (n : BtreeNode) (fuel : nat),
      Node.height n <= fuel ->
      (forall value cmp ad,
          Node.insert_fuel eqb fuel value cmp ad n
          = Some (Node.insert eqb value cmp ad n))
      /\ (forall value cmp,
             Node.search_fuel eqb fuel value cmp n
             = Some (Node.search eqb value cmp n))
      /\ (forall b, Node.unvisit_fuel fuel b n = Some (Node.unvisit b n)))
  /\ (forall (t : Btree) (fuel : nat),
         Tree.height t < fuel ->
         (forall value,
             Tree.insert_fuel eqb fuel value t = Some (Tree.insert eqb value t))
         /\ (forall value,
                Tree.search_fuel eqb fuel value t
                = Some (Tree.search eqb value t))
         /\ (forall rn : BtreeNode,
                Tree.root t = Some rn ->
                Tree.unvisitNodes_fuel fuel t
                = Some (Ok (Tree.mkBtree (Some (Node.unvisit true rn))
                                         (Tree._cmp t)
                                         (Tree._allow_duplicates t))))).
Proof.
  split.
  - intros n fuel Hh. repeat split; intros.
    + apply Node_insert_fuel_enough; exact Hh.
    + apply Node_search_fuel_enough; exact Hh.
    + apply Node_unvisit_fuel_enough; exact Hh.
  - intros [[rn|] cmp ad] [|fuel] Hh; unfold Tree.height in Hh; simpl in Hh;
      try lia; repeat split; intros; simpl;
      unfold Tree.insert, Tree.search, Tree.root in *; simpl in *;
      try reflexivity; try discriminate.
    + rewrite Node_insert_fuel_enough by lia. reflexivity.
    + rewrite Node_search_fuel_enough by lia.
      destruct (Node.search eqb value cmp rn). reflexivity.
    + match goal with H : Some _ = Some _ |- _ => injection H as <- end.
      rewrite Node_unvisit_fuel_enough by lia. reflexivity.
Qed.

End Theory.

(** ** The defect *)

(** C3: [unvisitNodes] on a tree without a root dereferences the null
    root: the call does not return normally with the tree left empty. *)
Theorem unvisitNodes_empty_tree_null_deref
        (T : Type) (cmp : Node.BtreeCmp (T := T)) (ad : bool) :
  Tree.unvisitNodes (Tree.new cmp ad) = NullDeref
  /\ Tree.unvisitNodes (Tree.new cmp ad) <> Ok (Tree.new cmp ad).
Proof.
  split; [reflexivity|discriminate].
Qed.

(** C9: on a tree without a root [unvisitNodes] never completes: however
    many activations it is given, it does not return a tree, and as soon
    as it is given one its outcome is the null dereference. *)
Theorem unvisitNodes_empty_tree_never_completes
        (T : Type) (cmp : Node.BtreeCmp (T := T)) (ad : bool) (fuel : nat) :
  (forall t' : Tree.Btree,
      Tree.unvisitNodes_fuel fuel (Tree.new cmp ad) <> Some (Ok t'))
  /\ Tree.unvisitNodes_fuel (S fuel) (Tree.new cmp ad) = Some NullDeref.
Proof.
  split; [|reflexivity]. intros t'. destruct fuel; discriminate.
Qed.

(** ** The scenario of the specification *)

(** C8: after the inserts of 5, 3, 8 and 1 under [a < b], [search(8)]
    returns 8 and [search(9)] returns absent; the root holds 5, its left
    child 3, its right child 8, and the left child of the node holding 3
    holds 1. *)
Theorem scenario_5_3_8_1 (allow_duplicates : bool) :
  fst (Tree.search Z.eqb 8%Z (Scenario.tree allow_duplicates)) = Some 8%Z
  /\ fst (Tree.search Z.eqb 9%Z (Scenario.tree allow_duplicates)) = None
  /\ exists n5 n3 n8 n1 : Node.BtreeNode,
      Tree.root (Scenario.tree allow_duplicates) = Some n5
      /\ Node.get n5 = 5%Z
      /\ Node.left n5 = Some n3 /\ Node.get n3 = 3%Z
      /\ Node.right n5 = Some n8 /\ Node.get n8 = 8%Z
      /\ Node.left n3 = Some n1 /\ Node.get n1 = 1%Z.
Proof.
  destruct allow_duplicates; (split; [reflexivity|]); (split; [reflexivity|]);
    do 4 eexists; repeat split.
Qed.

(** The bound on the depth is the height and no less: on the scenario's
    tree, of height 3, the search for 1 needs three activations below the
    tree's own. *)
Example scenario_search_depth :
  Tree.height (Scenario.tree true) = 3
  /\ Tree.search_fuel Z.eqb 3 1%Z (Scenario.tree true) = None
  /\ Tree.search_fuel Z.eqb 4 1%Z (Scenario.tree true)
     = Some (Some 1%Z, Scenario.tree true).
Proof. repeat split. Qed.

(** [visit] sets the flag of the node it is called on only, and
    [unvisitNodes] clears the flags that were set. *)
Example scenario_visit_unvisit :
  Node.isVisited (Node.visit (Node.new 3%Z)) = true
  /\ Node.left (Node.visit (Node.mkNode (Some (Node.new 3%Z)) None 5%Z false))
     = Some (Node.new 3%Z)
  /\ Tree.unvisitNodes Scenario.visited_tree
     = Ok (Tree.mkBtree
             (Some (Node.mkNode (Some (Node.new 3%Z)) None 5%Z false))
             Scenario.cmp true).
Proof. repeat split. Qed.

(** ** The theorems at concrete inputs *)

Lemma Z_eqb_reflexive : eqb_reflexive Z.eqb.
Proof. exact Z.eqb_refl. Defined.

Lemma Z_eqb_symmetric : eqb_symmetric Z.eqb.
Proof. intros x y H. rewrite Z.eqb_sym. exact H. Defined.

Lemma search_finds_every_inserted_value_witness :
  exists x : Z,
    fst (Tree.search Z.eqb 3%Z (Scenario.tree false)) = Some x
    /\ Z.eqb x 3%Z = true
    /\ Tree.stored x (Scenario.tree false).
Proof.
  apply (search_finds_every_inserted_value
           Z.eqb [5; 3; 8; 1]%Z (Tree.new Scenario.cmp false) 3%Z).
  - exact Z_eqb_reflexive.
  - intros _. exact Z_eqb_symmetric.
  - simpl. right. left. reflexivity.
Defined.


Lemma search_follows_one_path_witness :
  Node.search_spec Z.eqb Scenario.cmp 9%Z
                   (Node.mkNode None (Some (Node.new 8%Z)) 5%Z false) None.
Proof.
  destruct (search_follows_one_path Z.eqb) as [_ [_ Hspec]].
  apply Hspec. reflexivity.
Defined.

Lemma insert_preserves_partition_witness :
  Tree.partitioned (Scenario.tree true)
  /\ Tree.partitioned (Tree.insert Z.eqb 4%Z (Scenario.tree true)).
Proof.
  assert (Hp : Tree.partitioned (Scenario.tree true)).
  { unfold Tree.partitioned. simpl. repeat split.
    - intros x [->|[[->|[[]|[]]]|[]]]; reflexivity.
    - intros x [->|[[]|[]]]. reflexivity.
    - intros x [->|[[]|[]]]. reflexivity. }
  split; [exact Hp|].
  destruct (insert_preserves_partition Z.eqb) as [_ [Hstep _]].
  apply (Hstep 4%Z (Scenario.tree true)). exact Hp.
Defined.

Lemma calls_return_within_the_height_witness :
  Tree.insert_fuel Z.eqb 4 4%Z (Scenario.tree true)
  = Some (Tree.insert Z.eqb 4%Z (Scenario.tree true))
  /\ Tree.unvisitNodes_fuel 3 Scenario.visited_tree
     = Tree.unvisitNodes_fuel 9 Scenario.visited_tree.
Proof.
  destruct (calls_return_within_the_height Z.eqb) as [_ Htree].
  split.
  - apply (Htree (Scenario.tree true) 4%nat). unfold Tree.height. simpl. lia.
  - destruct (Htree Scenario.visited_tree 3%nat) as (_ & _ & H3);
      [unfold Tree.height; simpl; lia|].
    destruct (Htree Scenario.visited_tree 9%nat) as (_ & _ & H9);
      [unfold Tree.height; simpl; lia|].
    rewrite (H3 _ eq_refl), (H9 _ eq_refl). reflexivity.
Defined.

Lemma search_finds_value_inserted_first_witness :
  exists x : Z,
    fst (Tree.search Z.eqb 3%Z (Scenario.tree false)) = Some x
    /\ Z.eqb x 3%Z = true
    /\ Tree.stored x (Scenario.tree false).
Proof.
  apply (search_finds_value_inserted_first
           Z.eqb [5]%Z [8; 1]%Z (Tree.new Scenario.cmp false) 3%Z).
  - reflexivity.
  - right. unfold Tree.stored. simpl. intros w [->|[[]|[]]]. reflexivity.
Defined.

(** C1 as it is worded fails where a value does not equal itself: a NaN
    inserted into a [Btree<double>], under either policy (it is then the
    first of its kind), is stored and yet [search] does not find it. *)
Lemma search_misses_inserted_nan :
  In PrimFloat.nan [PrimFloat.one; PrimFloat.nan]
  /\ Tree.stored PrimFloat.nan (Scenario.nan_tree true)
  /\ fst (Tree.search PrimFloat.eqb PrimFloat.nan (Scenario.nan_tree true)) = None
  /\ Tree.stored PrimFloat.nan (Scenario.nan_tree false)
  /\ fst (Tree.search PrimFloat.eqb PrimFloat.nan (Scenario.nan_tree false)) = None.
Proof.
  split; [right; left; reflexivity|].
  split; [right; right; left; reflexivity|].
  split; [reflexivity|].
  split; [right; right; left; reflexivity|reflexivity].
Qed.

(** * Further properties of the two classes *)

Section MoreTheory.
Context {T : Type}.
Variable eqb : T -> T -> bool.

#[local] Abbreviation BtreeNode := (Node.BtreeNode (T := T)).
#[local] Abbreviation Btree := (Tree.Btree (T := T)).
#[local] Abbreviation BtreeCmp := (Node.BtreeCmp (T := T)).

(** ** What a tree holds *)

Lemma Node_stored_values (x : T) (n : BtreeNode) :
  Node.stored x n <-> In x (Node.values n).
Proof.
  induction n as [l r v vis IHl IHr] using Node.BtreeNode_ind'.
  simpl. rewrite in_app_iff.
  destruct l as [ln|], r as [rn|]; simpl in *;
    try rewrite IHl; try rewrite IHr; intuition congruence.
Qed.

Lemma Tree_stored_values (x : T) (t : Btree) :
  Tree.stored x t <-> In x (Tree.values t).
Proof.
  destruct t as [[rn|] cmp ad]; unfold Tree.stored, Tree.values; simpl.
  - apply Node_stored_values.
  - tauto.
Qed.

Lemma Node_size_values (n : BtreeNode) :
  Node.size n = length (Node.values n).
Proof.
  induction n as [l r v vis IHl IHr] using Node.BtreeNode_ind'.
  simpl. rewrite length_app.
  destruct l as [ln|], r as [rn|]; simpl in *; congruence.
Qed.

Lemma Tree_size_values (t : Btree) :
  Tree.size t = length (Tree.values t).
Proof.
  destruct t as [[rn|] cmp ad]; unfold Tree.size, Tree.values; simpl.
  - apply Node_size_values.
  - reflexivity.
Qed.

(** A node's [insert] either drops the value, which the duplicate policy
    must then forbid, or adds it to what the node holds. *)
Lemma Node_insert_values (value : T) (cmp : BtreeCmp) (ad : bool)
      (n : BtreeNode) :
  (ad = false /\ Node.insert eqb value cmp ad n = n)
  \/ Permutation (Node.values (Node.insert eqb value cmp ad n))
                 (value :: Node.values n).
Proof.
  induction n as [l r v vis IHl IHr] using Node.BtreeNode_ind'.
  simpl. destruct (negb ad && eqb value v) eqn:Hdup.
  - left. apply andb_true_iff in Hdup as [Had _].
    apply negb_true_iff in Had. auto.
  - destruct (cmp value v).
    + destruct l as [ln|]; simpl in *.
      * destruct IHl as [[Had Heq]|Hp]; [left; rewrite Heq; auto|right].
        rewrite Hp. simpl. apply perm_swap.
      * right. apply perm_swap.
    + destruct r as [rn|]; simpl in *.
      * destruct IHr as [[Had Heq]|Hp]; [left; rewrite Heq; auto|right].
        rewrite Hp. rewrite <- Permutation_middle. apply perm_swap.
      * right. rewrite app_nil_r.
        change (Permutation (v :: (match l with Some ln => Node.values ln | None => [] end) ++ [value])
                            (value :: v :: (match l with Some ln => Node.values ln | None => [] end))).
        rewrite <- Permutation_cons_append. apply perm_swap.
Qed.

Lemma Tree_insert_values (value : T) (t : Btree) :
  (Tree._allow_duplicates t = false /\ Tree.insert eqb value t = t)
  \/ Permutation (Tree.values (Tree.insert eqb value t))
                 (value :: Tree.values t).
Proof.
  destruct t as [[rn|] cmp ad]; unfold Tree.insert, Tree.values; simpl.
  - destruct (Node_insert_values value cmp ad rn) as [[Had Heq]|Hp].
    + left. rewrite Heq. auto.
    + right. exact Hp.
  - right. apply Permutation_refl.
Qed.

(** X1: with duplicates allowed a tree holds, after the values of a list were
    inserted, what it held before and the values of the list, each as
    many times as it was inserted. *)
Theorem tree_holds_what_was_inserted (values : list T) (t : Btree) :
  Tree._allow_duplicates t = true ->
  Permutation (Tree.values (Tree.insert_all eqb values t))
              (Tree.values t ++ values).
Proof.
  revert t. induction values as [|w ws IH]; intros t Had; simpl.
  - rewrite app_nil_r. apply Permutation_refl.
  - rewrite IH by (rewrite Tree_insert_policy; exact Had).
    destruct (Tree_insert_values w t) as [[Hf _]|Hp]; [congruence|].
    rewrite Hp. simpl. apply Permutation_middle.
Qed.

Lemma Tree_insert_stored (x value : T) (t : Btree) :
  (Tree.stored x t -> Tree.stored x (Tree.insert eqb value t))
  /\ (Tree.stored x (Tree.insert eqb value t) -> x = value \/ Tree.stored x t).
Proof.
  rewrite !Tree_stored_values.
  destruct (Tree_insert_values value t) as [[_ Heq]|Hp].
  - rewrite Heq. tauto.
  - split; intros H.
    + apply (Permutation_in x (Permutation_sym Hp)). right. exact H.
    + apply (Permutation_in x Hp) in H. destruct H; auto.
Qed.

Lemma Tree_insert_all_stored (values : list T) (t : Btree) (x : T) :
  (Tree.stored x t -> Tree.stored x (Tree.insert_all eqb values t))
  /\ (Tree.stored x (Tree.insert_all eqb values t) ->
      Tree.stored x t \/ In x values).
Proof.
  revert t. induction values as [|w ws IH]; intros t; simpl.
  - tauto.
  - destruct (IH (Tree.insert eqb w t)) as [IH1 IH2].
    destruct (Tree_insert_stored x w t) as [H1 H2]. split.
    + auto.
    + intros H. destruct (IH2 H) as [H'|H']; [|auto].
      destruct (H2 H'); auto.
Qed.

(** X2: under either policy an insert loses no value the tree holds, and a
    tree holds no value but those it held and those that were inserted. *)
Theorem insert_neither_loses_nor_invents (values : list T) (t : Btree) (x : T) :
  (Tree.stored x t -> Tree.stored x (Tree.insert_all eqb values t))
  /\ (Tree.stored x (Tree.insert_all eqb values t) ->
      Tree.stored x t \/ In x values).
Proof.
  apply Tree_insert_all_stored.
Qed.

Lemma Tree_insert_size (value : T) (t : Btree) :
  Tree.size t <= Tree.size (Tree.insert eqb value t) <= S (Tree.size t)
  /\ (Tree._allow_duplicates t = true ->
      Tree.size (Tree.insert eqb value t) = S (Tree.size t)).
Proof.
  rewrite !Tree_size_values.
  destruct (Tree_insert_values value t) as [[Had Heq]|Hp].
  - rewrite Heq. split; [lia|congruence].
  - rewrite (Permutation_length Hp). simpl. split; [lia|reflexivity].
Qed.

(** X3: each insert creates one node or none: the number of nodes never
    decreases, grows by at most the number of inserts, and by exactly
    that number when duplicates are allowed. *)
Theorem insert_all_node_count (values : list T) (t : Btree) :
  Tree.size t <= Tree.size (Tree.insert_all eqb values t)
  /\ Tree.size (Tree.insert_all eqb values t) <= Tree.size t + length values
  /\ (Tree._allow_duplicates t = true ->
      Tree.size (Tree.insert_all eqb values t) = Tree.size t + length values).
Proof.
  revert t. induction values as [|w ws IH]; intros t; simpl.
  - repeat split; lia.
  - destruct (IH (Tree.insert eqb w t)) as (IH1 & IH2 & IH3).
    destruct (Tree_insert_size w t) as [[H1 H2] H3].
    repeat split; try lia.
    intros Had. rewrite IH3 by (rewrite Tree_insert_policy; exact Had).
    rewrite (H3 Had). lia.
Qed.

(** ** Where an insert puts the node *)

Lemma Node_extends_refl (n : BtreeNode) : Node.extends n n.
Proof.
  induction n as [l r v vis IHl IHr] using Node.BtreeNode_ind'.
  simpl. destruct l, r; simpl in *; auto.
Qed.

Lemma Node_insert_extends (value : T) (cmp : BtreeCmp) (ad : bool)
      (n : BtreeNode) :
  Node.extends n (Node.insert eqb value cmp ad n).
Proof.
  induction n as [l r v vis IHl IHr] using Node.BtreeNode_ind'.
  simpl. destruct (negb ad && eqb value v).
  - apply (Node_extends_refl (Node.mkNode l r v vis)).
  - destruct (cmp value v).
    + destruct l as [ln|], r as [rn|]; simpl in *;
        repeat split; auto; apply Node_extends_refl.
    + destruct l as [ln|], r as [rn|]; simpl in *;
        repeat split; auto; apply Node_extends_refl.
Qed.

Lemma Node_insert_height (value : T) (cmp : BtreeCmp) (ad : bool)
      (n : BtreeNode) :
  Node.height n <= Node.height (Node.insert eqb value cmp ad n)
  <= S (Node.height n).
Proof.
  induction n as [l r v vis IHl IHr] using Node.BtreeNode_ind'.
  simpl. destruct (negb ad && eqb value v); [simpl; lia|].
  destruct (cmp value v).
  - destruct l as [ln|], r as [rn|]; simpl in *; try lia.
    destruct (Node.height rn); lia.
  - destruct l as [ln|], r as [rn|]; simpl in *; lia.
Qed.

(** X4: an insert moves nothing: every node the tree had is found again at
    its place, with its value and its flag (the new node, if any, hangs
    where a child was null), and the height grows by one at most. *)
Theorem insert_keeps_every_node_in_place (value : T) (t : Btree) :
  Tree.height t <= Tree.height (Tree.insert eqb value t) <= S (Tree.height t)
  /\ (forall rn : BtreeNode,
         Tree.root t = Some rn ->
         exists rn' : BtreeNode,
           Tree.root (Tree.insert eqb value t) = Some rn'
           /\ Node.extends rn rn').
Proof.
  destruct t as [[rn|] cmp ad];
    unfold Tree.height, Tree.root, Tree.insert; simpl.
  - split; [apply Node_insert_height|].
    intros rn0 [= <-]. eexists. split; [reflexivity|].
    apply Node_insert_extends.
  - split; [lia|]. intros rn0 [=].
Qed.

(** ** What [search] answers *)

(** X5: [search] answers with nothing but a value the tree holds and that
    [operator==] accepts for the query; when the tree holds no such
    value, and in particular when it is empty, the answer is absent. *)
Theorem search_answers_only_stored_equal_values (value : T) (t : Btree) :
  (forall x, fst (Tree.search eqb value t) = Some x ->
             eqb x value = true /\ Tree.stored x t)
  /\ ((forall x, Tree.stored x t -> eqb x value = false) ->
      fst (Tree.search eqb value t) = None).
Proof.
  rewrite Tree_search_unfold. simpl. split.
  - intros x. apply Tree_search_const_sound.
  - intros Hnone. destruct (Tree.search_const eqb value t) as [x|] eqn:Hs;
      [|reflexivity].
    destruct (Tree_search_const_sound eqb value x t Hs) as [He Hst].
    rewrite (Hnone x Hst) in He. discriminate.
Qed.

Lemma Node_search_complete (value : T) (cmp : BtreeCmp) (n : BtreeNode) :
  eqb value value = true ->
  Node.partitioned cmp n -> Node.stored value n ->
  exists x, Node.search_const eqb value cmp n = Some x.
Proof.
  intros Hrefl.
  induction n as [l r v vis IHl IHr] using Node.BtreeNode_ind'.
  simpl. intros [Hl Hr] Hst. destruct (eqb v value) eqn:He; [eauto|].
  destruct Hst as [->|[Hst|Hst]]; [congruence| |].
  - destruct l as [ln|]; [|contradiction]. destruct Hl as [Hl1 Hl2].
    rewrite (Hl1 value Hst). apply IHl; assumption.
  - destruct r as [rn|]; [|contradiction]. destruct Hr as [Hr1 Hr2].
    rewrite (Hr1 value Hst). apply IHr; assumption.
Qed.

(** X6: in a tree partitioned by its comparator, whatever the way it was
    built, [search] finds every value the tree holds that [operator==]
    finds equal to itself. *)
Theorem search_finds_what_a_partitioned_tree_holds (value : T) (t : Btree) :
  eqb value value = true ->
  Tree.partitioned t -> Tree.stored value t ->
  exists x, fst (Tree.search eqb value t) = Some x
            /\ eqb x value = true /\ Tree.stored x t.
Proof.
  intros Hrefl Hp Hst. rewrite Tree_search_unfold. simpl.
  assert (Hx : exists x, Tree.search_const eqb value t = Some x).
  { destruct t as [[rn|] cmp ad];
      unfold Tree.partitioned, Tree.stored, Tree.search_const in *; simpl in *.
    - apply Node_search_complete; assumption.
    - contradiction. }
  destruct Hx as [x Hx]. exists x. split; [exact Hx|].
  apply Tree_search_const_sound with (1 := Hx).
Qed.

Lemma Node_insert_keeps_result (value w x : T) (cmp : BtreeCmp) (ad : bool)
      (n : BtreeNode) :
  Node.search_const eqb value cmp n = Some x ->
  Node.search_const eqb value cmp (Node.insert eqb w cmp ad n) = Some x.
Proof.
  induction n as [l r v vis IHl IHr] using Node.BtreeNode_ind'.
  intros Hs. simpl. destruct (negb ad && eqb w v); [exact Hs|].
  simpl in Hs. destruct (eqb v value) eqn:He.
  - destruct (cmp w v); [destruct l|destruct r]; simpl; rewrite He; exact Hs.
  - destruct (cmp value v) eqn:Hcv.
    + destruct l as [ln|]; [|discriminate].
      destruct (cmp w v); [|destruct r]; simpl; rewrite He, Hcv; auto.
    + destruct r as [rn|]; [|discriminate].
      destruct (cmp w v); [destruct l|]; simpl; rewrite He, Hcv; auto.
Qed.

Lemma Node_insert_new_result (value w x : T) (cmp : BtreeCmp) (ad : bool)
      (n : BtreeNode) :
  Node.search_const eqb value cmp n = None ->
  Node.search_const eqb value cmp (Node.insert eqb w cmp ad n) = Some x ->
  x = w.
Proof.
  induction n as [l r v vis IHl IHr] using Node.BtreeNode_ind'.
  simpl. destruct (negb ad && eqb w v).
  - simpl. intros H1 H2. congruence.
  - destruct (eqb v value) eqn:He; [discriminate|].
    destruct (cmp value v) eqn:Hcv.
    + destruct (cmp w v).
      * destruct l as [ln|]; simpl; rewrite He, Hcv.
        -- apply IHl.
        -- simpl. destruct (eqb w value), (cmp value w); congruence.
      * destruct r as [rn|]; simpl; rewrite He, Hcv; congruence.
    + destruct (cmp w v).
      * destruct l as [ln|]; simpl; rewrite He, Hcv; congruence.
      * destruct r as [rn|]; simpl; rewrite He, Hcv.
        -- apply IHr.
        -- simpl. destruct (eqb w value), (cmp value w); congruence.
Qed.

(** X7: an insert changes no answer that [search] gave: a value that was
    found is found again, the same, and where a query had no answer the
    only answer it can get is the value just inserted. *)
Theorem insert_keeps_the_answers_of_search (value w : T) (t : Btree) :
  (forall x, fst (Tree.search eqb value t) = Some x ->
             fst (Tree.search eqb value (Tree.insert eqb w t)) = Some x)
  /\ (forall x, fst (Tree.search eqb value t) = None ->
                fst (Tree.search eqb value (Tree.insert eqb w t)) = Some x ->
                x = w).
Proof.
  rewrite !Tree_search_unfold. simpl.
  destruct t as [[rn|] cmp ad]; unfold Tree.search_const, Tree.insert; simpl.
  - split; intros x.
    + apply Node_insert_keeps_result.
    + apply Node_insert_new_result.
  - split; intros x; [discriminate|].
    intros _. destruct (eqb w value), (cmp value w); congruence.
Qed.

(** ** Duplicates that are refused *)

Lemma Node_insert_stored_noop (value w : T) (cmp : BtreeCmp) (n : BtreeNode) :
  eqb value w = true -> (forall z, cmp value z = cmp w z) ->
  Node.partitioned cmp n -> Node.stored w n ->
  Node.insert eqb value cmp false n = n.
Proof.
  intros Heq Hcmp.
  induction n as [l r v vis IHl IHr] using Node.BtreeNode_ind'.
  simpl. intros [Hl Hr] Hst. destruct (eqb value v) eqn:He; [reflexivity|].
  destruct Hst as [->|[Hst|Hst]]; [congruence| |].
  - destruct l as [ln|]; [|contradiction]. destruct Hl as [Hl1 Hl2].
    rewrite Hcmp, (Hl1 w Hst). simpl in IHl. rewrite IHl by assumption.
    reflexivity.
  - destruct r as [rn|]; [|contradiction]. destruct Hr as [Hr1 Hr2].
    rewrite Hcmp, (Hr1 w Hst). simpl in IHr. rewrite IHr by assumption.
    reflexivity.
Qed.

Lemma Tree_insert_stored_noop (value w : T) (t : Btree) :
  Tree._allow_duplicates t = false ->
  eqb value w = true -> (forall z, Tree._cmp t value z = Tree._cmp t w z) ->
  Tree.partitioned t -> Tree.stored w t ->
  Tree.insert eqb value t = t.
Proof.
  destruct t as [[rn|] cmp ad];
    unfold Tree.partitioned, Tree.stored, Tree.insert; simpl;
    intros -> Heq Hcmp Hp Hst.
  - rewrite (Node_insert_stored_noop value w cmp rn) by assumption.
    reflexivity.
  - contradiction.
Qed.

(** X8: when duplicates are refused, the refusal reaches the whole of a
    partitioned tree: inserting a value that equals, for [operator==],
    one the tree holds anywhere, and that the comparator cannot tell
    from it, leaves the tree as it is. *)
Theorem refused_duplicate_anywhere_in_the_tree (value w : T) (t : Btree) :
  Tree._allow_duplicates t = false ->
  eqb value w = true -> (forall z, Tree._cmp t value z = Tree._cmp t w z) ->
  Tree.partitioned t -> Tree.stored w t ->
  Tree.insert eqb value t = t.
Proof.
  apply Tree_insert_stored_noop.
Qed.

Lemma Tree_insert_NoDup (value : T) (t : Btree) :
  eqb_reflexive eqb ->
  Tree._allow_duplicates t = false ->
  Tree.partitioned t -> NoDup (Tree.values t) ->
  NoDup (Tree.values (Tree.insert eqb value t)).
Proof.
  intros Hrefl Had Hp Hnd.
  destruct (Tree_insert_values value t) as [[_ Heq]|Hperm].
  - rewrite Heq. exact Hnd.
  - apply (Permutation_NoDup (Permutation_sym Hperm)).
    constructor; [|exact Hnd]. intros Hin.
    apply Tree_stored_values in Hin.
    rewrite (Tree_insert_stored_noop value value t) in Hperm; auto.
    apply Permutation_length in Hperm. simpl in Hperm. lia.
Qed.

(** X9: when duplicates are refused and [operator==] is reflexive, a tree
    that is partitioned and holds no value twice still holds no value
    twice after any inserts; so does, then, a tree built from the empty
    one. *)
Theorem no_value_twice_when_duplicates_refused (values : list T) (t : Btree) :
  eqb_reflexive eqb ->
  Tree._allow_duplicates t = false ->
  Tree.partitioned t -> NoDup (Tree.values t) ->
  NoDup (Tree.values (Tree.insert_all eqb values t)).
Proof.
  intros Hrefl. revert t.
  induction values as [|w ws IH]; intros t Had Hp Hnd; simpl.
  - exact Hnd.
  - apply IH.
    + rewrite Tree_insert_policy. exact Had.
    + apply Tree_insert_partitioned. exact Hp.
    + apply Tree_insert_NoDup; assumption.
Qed.

(** ** The root and the configuration *)

Lemma Tree_insert_root (value : T) (t : Btree) (rn : BtreeNode) :
  Tree.root t = Some rn ->
  exists rn' : BtreeNode,
    Tree.root (Tree.insert eqb value t) = Some rn'
    /\ Node.get rn' = Node.get rn
    /\ Node.isVisited rn' = Node.isVisited rn.
Proof.
  destruct t as [[rn0|] cmp ad]; unfold Tree.root, Tree.insert; simpl;
    intros [= <-].
  eexists. split; [reflexivity|]. apply Node_insert_keeps_node.
Qed.

Lemma Tree_insert_all_root (values : list T) (t : Btree) (rn : BtreeNode) :
  Tree.root t = Some rn ->
  exists rn' : BtreeNode,
    Tree.root (Tree.insert_all eqb values t) = Some rn'
    /\ Node.get rn' = Node.get rn
    /\ Node.isVisited rn' = Node.isVisited rn.
Proof.
  revert t rn. induction values as [|w ws IH]; intros t rn Hr; simpl.
  - exists rn. auto.
  - destruct (Tree_insert_root w t rn Hr) as (rn1 & Hr1 & Hg1 & Hv1).
    destruct (IH _ _ Hr1) as (rn2 & Hr2 & Hg2 & Hv2).
    exists rn2. repeat split; congruence.
Qed.

(** X10: the first value inserted into an empty tree is the root's value
    for good: no later insert replaces the root or writes its value. *)
Theorem first_value_stays_at_the_root
        (value : T) (values : list T) (cmp : BtreeCmp) (ad : bool) :
  exists rn : BtreeNode,
    Tree.root (Tree.insert_all eqb (value :: values) (Tree.new cmp ad)) = Some rn
    /\ Node.get rn = value.
Proof.
  destruct (Tree_insert_all_root values
              (Tree.insert eqb value (Tree.new cmp ad)) (Node.new value))
    as (rn & Hr & Hg & _); [reflexivity|].
  exists rn. split; [exact Hr|exact Hg].
Qed.

(** X11: no insert touches the configuration: the comparator and the
    duplicate policy after any inserts are those of the construction. *)
Theorem inserts_keep_the_configuration (values : list T) (t : Btree) :
  Tree._cmp (Tree.insert_all eqb values t) = Tree._cmp t
  /\ Tree._allow_duplicates (Tree.insert_all eqb values t)
     = Tree._allow_duplicates t.
Proof.
  revert t. induction values as [|w ws IH]; intros t; simpl.
  - split; reflexivity.
  - destruct (IH (Tree.insert eqb w t)) as [H1 H2].
    rewrite H1, H2, Tree_insert_cmp, Tree_insert_policy. split; reflexivity.
Qed.

(** ** The visited flags *)

Lemma Node_search_same_structure (value : T) (cmp : BtreeCmp)
      (a b : BtreeNode) :
  Node.same_structure a b ->
  Node.search_const eqb value cmp a = Node.search_const eqb value cmp b.
Proof.
  revert b. induction a as [l r v vis IHl IHr] using Node.BtreeNode_ind'.
  intros [lb rb vb fb]. simpl. intros (<- & Hl & Hr).
  destruct (eqb v value); [reflexivity|].
  destruct (cmp value v).
  - destruct l as [ln|], lb as [lbn|]; try contradiction; auto.
  - destruct r as [rn|], rb as [rbn|]; try contradiction; auto.
Qed.

Lemma Node_insert_same_structure (value : T) (cmp : BtreeCmp) (ad : bool)
      (a b : BtreeNode) :
  Node.same_structure a b ->
  Node.same_structure (Node.insert eqb value cmp ad a)
                      (Node.insert eqb value cmp ad b).
Proof.
  revert b. induction a as [l r v vis IHl IHr] using Node.BtreeNode_ind'.
  intros [lb rb vb fb]. simpl. intros (<- & Hl & Hr).
  destruct (negb ad && eqb value v); [simpl; auto|].
  destruct (cmp value v).
  - destruct l as [ln|], lb as [lbn|]; try contradiction; simpl;
      repeat split; auto.
  - destruct r as [rn|], rb as [rbn|]; try contradiction; simpl;
      repeat split; auto.
Qed.

(** X12: the flags steer nothing: on two nodes of the same shape and values,
    whatever their flags and those of their descendants, [search]
    answers the same and [insert] builds the same shape and values. *)
Theorem flags_steer_neither_search_nor_insert (a b : BtreeNode) :
  Node.same_structure a b ->
  (forall (value : T) (cmp : BtreeCmp),
      fst (Node.search eqb value cmp a) = fst (Node.search eqb value cmp b))
  /\ (forall (value : T) (cmp : BtreeCmp) (ad : bool),
         Node.same_structure (Node.insert eqb value cmp ad a)
                             (Node.insert eqb value cmp ad b)).
Proof.
  intros H. split; intros.
  - rewrite !Node_search_unfold. simpl.
    apply Node_search_same_structure. exact H.
  - apply Node_insert_same_structure. exact H.
Qed.

Lemma Node_unvisit_unvisited (n : BtreeNode) :
  Node.all_nodes (fun m => Node.isVisited m = false) n ->
  Node.unvisit true n = n.
Proof.
  induction n as [l r v vis IHl IHr] using Node.BtreeNode_ind'.
  simpl. unfold Node.isVisited at 1. simpl. intros (-> & Hl & Hr).
  destruct l as [ln|], r as [rn|]; simpl in *;
    try rewrite (IHl Hl); try rewrite (IHr Hr); reflexivity.
Qed.

(** X13: what [unvisit] did, a second [unvisit] does not undo or extend:
    [unvisit] is idempotent, the recursive one absorbs the plain one,
    and either of them cancels a [visit] of the node. *)
Theorem unvisit_absorbs_earlier_calls (b : bool) (n : BtreeNode) :
  Node.unvisit b (Node.unvisit b n) = Node.unvisit b n
  /\ Node.unvisit true (Node.unvisit false n) = Node.unvisit true n
  /\ Node.unvisit false (Node.unvisit true n) = Node.unvisit true n
  /\ Node.unvisit b (Node.visit n) = Node.unvisit b n.
Proof.
  split; [|split; [|split]].
  - destruct b.
    + apply Node_unvisit_unvisited. apply Node_unvisit_clears.
    + destruct n; reflexivity.
  - destruct n; reflexivity.
  - destruct n; reflexivity.
  - destruct n, b; reflexivity.
Qed.

Lemma Node_unvisit_insert (b : bool) (value : T) (cmp : BtreeCmp) (ad : bool)
      (n : BtreeNode) :
  Node.unvisit b (Node.insert eqb value cmp ad n)
  = Node.insert eqb value cmp ad (Node.unvisit b n).
Proof.
  induction n as [l r v vis IHl IHr] using Node.BtreeNode_ind'.
  destruct b; simpl.
  - destruct (negb ad && eqb value v); [reflexivity|].
    destruct (cmp value v).
    + destruct l as [ln|]; simpl in *; [rewrite IHl|]; reflexivity.
    + destruct r as [rn|]; simpl in *; [rewrite IHr|]; reflexivity.
  - destruct (negb ad && eqb value v); [reflexivity|].
    destruct (cmp value v); [destruct l|destruct r]; reflexivity.
Qed.

(** X14: clearing the flags and inserting commute: [unvisitNodes] after an
    insert gives the tree the insert gives after [unvisitNodes]. *)
Theorem unvisitNodes_commutes_with_insert (value : T) (t t' : Btree) :
  Tree.unvisitNodes t = Ok t' ->
  Tree.unvisitNodes (Tree.insert eqb value t) = Ok (Tree.insert eqb value t').
Proof.
  destruct t as [[rn|] cmp ad]; unfold Tree.unvisitNodes, Tree.insert; simpl;
    [|discriminate].
  intros [= <-]. simpl. rewrite Node_unvisit_insert. reflexivity.
Qed.

(** X15: once a value was inserted the tree has a root for good, and
    [unvisitNodes] returns normally whatever was inserted since. *)
Theorem unvisitNodes_returns_after_an_insert
        (value : T) (values : list T) (t : Btree) :
  exists t' : Btree,
    Tree.unvisitNodes (Tree.insert_all eqb (value :: values) t) = Ok t'.
Proof.
  simpl.
  assert (Hr : exists rn, Tree.root (Tree.insert eqb value t) = Some rn).
  { destruct t as [[rn|] cmp ad]; unfold Tree.root, Tree.insert; simpl;
      eexists; reflexivity. }
  destruct Hr as [rn Hr].
  destruct (Tree_insert_all_root values _ rn Hr) as (rn' & Hr' & _).
  unfold Tree.unvisitNodes. unfold Tree.root in Hr'. rewrite Hr'. eauto.
Qed.

Lemma Node_insert_unvisited (value : T) (cmp : BtreeCmp) (ad : bool)
      (n : BtreeNode) :
  Node.all_nodes (fun m => Node.isVisited m = false) n ->
  Node.all_nodes (fun m => Node.isVisited m = false)
                 (Node.insert eqb value cmp ad n).
Proof.
  induction n as [l r v vis IHl IHr] using Node.BtreeNode_ind'.
  intros H. simpl. destruct (negb ad && eqb value v); [exact H|].
  simpl in H. destruct H as (Hv & Hl & Hr).
  destruct (cmp value v).
  - destruct l as [ln|]; simpl; repeat split; auto.
  - destruct r as [rn|]; simpl; repeat split; auto.
Qed.

Lemma Tree_insert_unvisited (value : T) (t : Btree) :
  Tree.unvisited t -> Tree.unvisited (Tree.insert eqb value t).
Proof.
  destruct t as [[rn|] cmp ad]; unfold Tree.unvisited, Tree.insert; simpl.
  - apply Node_insert_unvisited.
  - intros _. repeat split.
Qed.

(** X16: no insert sets a flag: a tree in which no node is visited, such as
    the empty one, has none visited after any inserts, and
    [unvisitNodes], where it returns, then returns the tree unchanged. *)
Theorem inserts_set_no_flag (values : list T) (t : Btree) :
  Tree.unvisited t ->
  Tree.unvisited (Tree.insert_all eqb values t)
  /\ (forall t' : Btree,
         Tree.unvisitNodes (Tree.insert_all eqb values t) = Ok t' ->
         t' = Tree.insert_all eqb values t).
Proof.
  intros Hu.
  assert (Hall : Tree.unvisited (Tree.insert_all eqb values t)).
  { revert t Hu. induction values as [|w ws IH]; intros t Hu; simpl.
    - exact Hu.
    - apply IH. apply Tree_insert_unvisited. exact Hu. }
  split; [exact Hall|].
  destruct (Tree.insert_all eqb values t) as [[rn|] cmp ad];
    unfold Tree.unvisitNodes, Tree.unvisited in *; simpl in *;
    intros t' [= <-].
  rewrite Node_unvisit_unvisited by exact Hall. reflexivity.
Qed.

(** ** Insert and search, end to end *)

(** X17: when [operator==] decides equality, [search] on a tree built from
    the empty one tells which values were inserted: it returns [v] when
    [v] is one of them and absent when it is not, under either policy. *)
Theorem search_decides_what_was_inserted
        (values : list T) (cmp : BtreeCmp) (ad : bool) (v : T) :
  (forall x y, eqb x y = true <-> x = y) ->
  (In v values ->
   fst (Tree.search eqb v (Tree.insert_all eqb values (Tree.new cmp ad)))
   = Some v)
  /\ (~ In v values ->
      fst (Tree.search eqb v (Tree.insert_all eqb values (Tree.new cmp ad)))
      = None).
Proof.
  intros Hspec. rewrite Tree_search_unfold. simpl.
  assert (Hrefl : eqb_reflexive eqb) by (intros x; apply Hspec; reflexivity).
  assert (Hsym : eqb_symmetric eqb).
  { intros x y H. apply Hspec. symmetry. apply Hspec. exact H. }
  split.
  - intros Hin.
    destruct (Tree_insert_all_hits eqb v values (Tree.new cmp ad) Hrefl
                                   (fun _ => Hsym) Hin) as [x Hx].
    destruct (Tree_search_const_sound eqb v x _ Hx) as [He _].
    apply Hspec in He. congruence.
  - intros Hnin.
    destruct (Tree.search_const eqb v (Tree.insert_all eqb values (Tree.new cmp ad)))
      as [x|] eqn:Hs; [|reflexivity].
    destruct (Tree_search_const_sound eqb v x _ Hs) as [He Hst].
    apply Hspec in He. subst x.
    apply Tree_insert_all_stored in Hst. destruct Hst as [[]|Hin].
    contradiction.
Qed.

End MoreTheory.

(** ** The further theorems at concrete inputs *)

Lemma Z_eqb_decides : forall x y : Z, Z.eqb x y = true <-> x = y.
Proof. exact Z.eqb_eq. Defined.

Lemma tree_holds_what_was_inserted_witness :
  Permutation
    (Tree.values (Tree.insert_all Z.eqb [5; 3; 5]%Z (Tree.new Scenario.cmp true)))
    [5; 3; 5]%Z.
Proof.
  exact (tree_holds_what_was_inserted
           Z.eqb [5; 3; 5]%Z (Tree.new Scenario.cmp true) eq_refl).
Defined.

Lemma insert_neither_loses_nor_invents_witness :
  Tree.stored 3%Z (Tree.insert_all Z.eqb [8; 1]%Z
                     (Tree.insert_all Z.eqb [5; 3]%Z (Tree.new Scenario.cmp false))).
Proof.
  apply (insert_neither_loses_nor_invents
           Z.eqb [8; 1]%Z
           (Tree.insert_all Z.eqb [5; 3]%Z (Tree.new Scenario.cmp false)) 3%Z).
  unfold Tree.stored. simpl. right. left. left. reflexivity.
Defined.

Lemma insert_all_node_count_witness :
  Tree.size (Tree.insert_all Z.eqb [5; 3; 5]%Z (Tree.new Scenario.cmp true)) = 3.
Proof.
  apply (insert_all_node_count
           Z.eqb [5; 3; 5]%Z (Tree.new Scenario.cmp true)).
  reflexivity.
Defined.

Lemma insert_keeps_every_node_in_place_witness :
  exists rn' : Node.BtreeNode,
    Tree.root (Tree.insert Z.eqb 4%Z Scenario.visited_tree) = Some rn'
    /\ Node.extends
         (Node.mkNode (Some (Node.visit (Node.new 3%Z))) None 5%Z true) rn'.
Proof.
  apply (insert_keeps_every_node_in_place Z.eqb 4%Z Scenario.visited_tree).
  reflexivity.
Defined.

Lemma search_answers_only_stored_equal_values_witness :
  fst (Tree.search Z.eqb 9%Z (Scenario.tree true)) = None.
Proof.
  apply (search_answers_only_stored_equal_values Z.eqb 9%Z (Scenario.tree true)).
  intros x. unfold Tree.stored. simpl.
  intros [->|[[->|[[->|[[]|[]]]|[]]]|[->|[[]|[]]]]]; reflexivity.
Defined.

Lemma search_finds_what_a_partitioned_tree_holds_witness :
  exists x : Z,
    fst (Tree.search Z.eqb 3%Z Scenario.visited_tree) = Some x
    /\ Z.eqb x 3%Z = true
    /\ Tree.stored x Scenario.visited_tree.
Proof.
  apply (search_finds_what_a_partitioned_tree_holds
           Z.eqb 3%Z Scenario.visited_tree).
  - reflexivity.
  - unfold Tree.partitioned. simpl. repeat split.
    intros x [->|[[]|[]]]. reflexivity.
  - unfold Tree.stored. simpl. right. left. left. reflexivity.
Defined.

Lemma insert_keeps_the_answers_of_search_witness :
  fst (Tree.search Z.eqb 3%Z (Tree.insert Z.eqb 4%Z (Scenario.tree true)))
  = Some 3%Z.
Proof.
  apply (insert_keeps_the_answers_of_search
           Z.eqb 3%Z 4%Z (Scenario.tree true)).
  reflexivity.
Defined.

Lemma refused_duplicate_anywhere_in_the_tree_witness :
  Tree.insert Z.eqb 1%Z (Scenario.tree false) = Scenario.tree false.
Proof.
  apply (refused_duplicate_anywhere_in_the_tree
           Z.eqb 1%Z 1%Z (Scenario.tree false)).
  - reflexivity.
  - reflexivity.
  - intros z. reflexivity.
  - apply (Tree_insert_all_partitioned
             Z.eqb [5; 3; 8; 1]%Z (Tree.new Scenario.cmp false)).
    exact I.
  - unfold Tree.stored. simpl. right. left. right. left. left. reflexivity.
Defined.

Lemma no_value_twice_when_duplicates_refused_witness :
  NoDup (Tree.values
           (Tree.insert_all Z.eqb [5; 3; 5; 3]%Z (Tree.new Scenario.cmp false))).
Proof.
  apply (no_value_twice_when_duplicates_refused
           Z.eqb [5; 3; 5; 3]%Z (Tree.new Scenario.cmp false)).
  - exact Z_eqb_reflexive.
  - reflexivity.
  - exact I.
  - constructor.
Defined.

Lemma flags_steer_neither_search_nor_insert_witness :
  fst (Node.search Z.eqb 3%Z Scenario.cmp
         (Node.mkNode (Some (Node.visit (Node.new 3%Z))) None 5%Z true))
  = fst (Node.search Z.eqb 3%Z Scenario.cmp
           (Node.mkNode (Some (Node.new 3%Z)) None 5%Z false)).
Proof.
  apply (flags_steer_neither_search_nor_insert
           Z.eqb
           (Node.mkNode (Some (Node.visit (Node.new 3%Z))) None 5%Z true)
           (Node.mkNode (Some (Node.new 3%Z)) None 5%Z false)).
  simpl. repeat split.
Defined.

Lemma unvisitNodes_commutes_with_insert_witness :
  Tree.unvisitNodes (Tree.insert Z.eqb 4%Z Scenario.visited_tree)
  = Ok (Tree.insert Z.eqb 4%Z
          (Tree.mkBtree
             (Some (Node.mkNode (Some (Node.new 3%Z)) None 5%Z false))
             Scenario.cmp true)).
Proof.
  apply (unvisitNodes_commutes_with_insert Z.eqb 4%Z Scenario.visited_tree).
  reflexivity.
Defined.

Lemma inserts_set_no_flag_witness :
  Tree.unvisited (Scenario.tree true).
Proof.
  apply (inserts_set_no_flag Z.eqb [5; 3; 8; 1]%Z (Tree.new Scenario.cmp true)).
  exact I.
Defined.

Lemma search_decides_what_was_inserted_witness :
  fst (Tree.search Z.eqb 8%Z (Scenario.tree false)) = Some 8%Z
  /\ fst (Tree.search Z.eqb 9%Z (Scenario.tree false)) = None.
Proof.
  split.
  - apply (search_decides_what_was_inserted
             Z.eqb [5; 3; 8; 1]%Z Scenario.cmp false 8%Z Z_eqb_decides).
    simpl. right. right. left. reflexivity.
  - apply (search_decides_what_was_inserted
             Z.eqb [5; 3; 8; 1]%Z Scenario.cmp false 9%Z Z_eqb_decides).
    simpl. intros [H|[H|[H|[H|[]]]]]; discriminate.
Defined.
